(** * Node.js child processes: a shallow embedding of [childprocess.js]

    The source file is a walk through Node's [child_process] module.  The
    parts that carry behaviour are embedded here:

    - [spawn] with the [env] option (lines 201-216);
    - [parent.js] / [child.js], the peer messaging example (lines 291-310);
    - [longComputation] and [compute.js] (lines 362-373);
    - the HTTP server that forks [compute.js] per request (lines 377-391).

    JavaScript closures registered as listeners are defunctionalised, the
    event loop is a fold over the events it dispatches, and every effect
    ([console.log], [res.end]) is appended to an output trace. *)

From Stdlib Require Import ZArith Lia Floats.
From stdpp Require Import gmap strings list.

Local Open Scope Z_scope.

(** ** Numbers

    A JavaScript Number is an IEEE-754 binary64.  Every number the source
    computes with is an integer ([0], [1e9], counters and running sums
    below 2^60), so a Number is modelled by the integer it denotes and
    addition rounds the exact sum to a 53-bit significand, ties to even.
    Overflow to Infinity (at 2^1024) is out of reach and not modelled. *)
Module Number.

Definition precision : Z := 53.

(** [round53 x]: the binary64 nearest to the integer [x]. *)
Definition round53 (x : Z) : Z :=
  let a := Z.abs x in
  let e := Z.log2 a - (precision - 1) in
  if e <=? 0 then x
  else
    let q := Z.shiftr a e in
    let r := Z.land a (Z.ones e) in
    let half := Z.shiftl 1 (e - 1) in
    let q' := if r <? half then q
              else if half <? r then q + 1
              else if Z.even q then q else q + 1 in
    Z.sgn x * Z.shiftl q' e.

(** [a + b] on Numbers. *)
Definition js_add (a b : Z) : Z := round53 (a + b).

(** [a < b] on Numbers. *)
Definition js_lt (a b : Z) : bool := a <? b.

(** The same addition carried out by the primitive binary64 floats, used
    below to test [js_add] against the hardware rounding. *)
Definition binary64_of_Z (x : Z) : float :=
  if x <? 0 then PrimFloat.opp (PrimFloat.of_uint63 (Uint63.of_Z (- x)))
  else PrimFloat.of_uint63 (Uint63.of_Z x).

Definition Z_of_binary64 (f : float) : option Z :=
  match Prim2SF f with
  | SpecFloat.S754_zero _ => Some 0
  | SpecFloat.S754_finite s m e =>
      let v := Z.shiftl (Z.pos m) e in
      if Z.shiftl v (- e) =? Z.pos m
      then Some (if s then - v else v) else None
  | _ => None
  end.

Definition binary64_add (a b : Z) : option Z :=
  Z_of_binary64 (PrimFloat.add (binary64_of_Z a) (binary64_of_Z b)).

Definition agrees_with_binary64 (ab : Z * Z) : bool :=
  match binary64_add (fst ab) (snd ab) with
  | Some s => s =? js_add (fst ab) (snd ab)
  | None => false
  end.

Definition rounding_samples : list (Z * Z) :=
  [ (0, 0); (5, 7); (-5, 3); (9007199254740991, 1);
    (9007199254740992, 1); (9007199254740992, 2); (9007199254740992, 3);
    (9007199254740994, 1); (9007199254740996, 1); (-9007199254740992, -1);
    (18014398509481984, 1); (18014398509481984, 2); (18014398509481984, 3);
    (18014398509481984, 6); (36028797018963968, 4); (36028797018963968, 5);
    (499999999067108992, 999999999); (499999998067108992, 999999998);
    (400000000000000000, 123456789); (9007199120523264, 134217728) ].

End Number.
Import Number.

(** ** Values exchanged between processes *)
#[warnings="-register-all"]
Inductive JsValue : Type :=
| JUndefined
| JNum (n : Z)
| JStr (s : string)
| JObj (fields : list (string * JsValue)).

(** ** [longComputation] (lines 362-368)

  [let sum = 0; for (let i = 0; i < 1e9; i++) { sum += i; }; return sum;]

  The loop is run with fuel; [None] stands for a loop that has not finished
  within the fuel.  The bound is a parameter of [for_loop] so that the loop
  can be run on small bounds; [longComputation] fixes it to [1e9]. *)
Module LongComputation.

Fixpoint for_loop (fuel : nat) (limit i sum : Z) : option Z :=
  if js_lt i limit then
    match fuel with
    | O => None
    | S fuel' => for_loop fuel' limit (js_add i 1) (js_add sum i)
    end
  else Some sum.

Definition loop_bound : Z := 1000000000.

Definition longComputation_fuel (fuel : nat) : option Z :=
  for_loop fuel loop_bound 0 0.

(** The loop counter reaches the bound after [1e9] rounds, so that much
    fuel is enough (lemma [longComputation_fuel_enough]). *)
Definition longComputation : option Z :=
  longComputation_fuel (Z.to_nat loop_bound).

(** The same loop on the primitive binary64 floats, to test [for_loop]
    against the hardware arithmetic where the running sum is rounded. *)
Fixpoint binary64_for_loop (fuel : nat) (limit i sum : float) : option float :=
  if PrimFloat.ltb i limit then
    match fuel with
    | O => None
    | S fuel' =>
        binary64_for_loop fuel' limit (PrimFloat.add i 1) (PrimFloat.add sum i)
    end
  else Some sum.

Definition for_loop_agrees_with_binary64 (fuel : nat) (limit i sum : Z) : bool :=
  match for_loop fuel limit i sum,
        binary64_for_loop fuel (binary64_of_Z limit) (binary64_of_Z i)
          (binary64_of_Z sum) with
  | Some s, Some f =>
      match Z_of_binary64 f with
      | Some s' => s =? s'
      | None => false
      end
  | _, _ => false
  end.

(** The claim's wording: the integers [0 .. n-1] added up, left to right,
    with the addition of Numbers. *)
Definition sum_of_integers_below (n : nat) : Z :=
  fold_left js_add (map Z.of_nat (seq 0 n)) 0.

(** The exact sum of [0 .. n-1] is [n * (n - 1) / 2]; it is stated doubled to
    stay clear of division. *)
Definition exact_sum (n : nat) (s : Z) : Prop :=
  2 * s = Z.of_nat n * (Z.of_nat n - 1).

End LongComputation.

(** ** Effects and listeners

    What the modelled callbacks do to the outside world, in the order they do
    it.  [res.end] takes a string; the template literal of line 384 is kept
    as its fixed text and the value spliced into it. *)
Inductive Body : Type :=
| Plain (text : string)
| Template (text : string) (spliced : JsValue).

Inductive Effect : Type :=
| ConsoleLog (label : string) (v : JsValue)
| ConsoleLogExit (code : option Z) (signal : option string)
| ResEnd (res : nat) (body : Body).

(** The closures passed to [.on('message', ...)]:
    [(msg) => console.log('Message from child', msg)] (line 295) and
    [sum => res.end(`Sum is ${sum}`)] (line 383), which captures the [res] of
    the request that registered it. *)
Inductive MessageListener : Type :=
| LogMessageFromChild
| RespondWithSum (res : nat).

(** The closure passed to [.on('exit', ...)] (line 55). *)
Inductive ExitListener : Type :=
| LogExit.

(** ** [compute.js] (lines 362-373) *)
Module ComputeJs.

(** [process.on('message', (msg) => { const sum = longComputation();
    process.send(sum); })]: the messages the handler sends to its parent. *)
Definition on_message (msg : JsValue) : option (list JsValue) :=
  sum ← LongComputation.longComputation;
  Some [JNum sum].

End ComputeJs.

(** ** [child.js] (lines 302-310) *)
Module ChildJs.

(** [process.on('message', (msg) => console.log('Message from parent:', msg))] *)
Definition on_message (msg : JsValue) : list Effect :=
  [ConsoleLog "Message from parent:" msg].

(** [let counter = 0;] *)
Definition counter_init : Z := 0.

Definition counter_message (counter : Z) : JsValue :=
  JObj [("counter"%string, JNum counter)].

(** The interval callback [process.send({ counter: counter++ })]: the message
    carries the counter as it was, and the counter is then one more. *)
Definition on_interval (counter : Z) : JsValue * Z :=
  (counter_message counter, js_add counter 1).

(** The messages sent by [n] firings of the timer, oldest first. *)
Fixpoint intervals (n : nat) (counter : Z) : list JsValue :=
  match n with
  | O => []
  | S n' =>
      let (msg, counter') := on_interval counter in
      msg :: intervals n' counter'
  end.

(** The counter after [n] firings. *)
Fixpoint counter_after (n : nat) (counter : Z) : Z :=
  match n with
  | O => counter
  | S n' => counter_after n' (snd (on_interval counter))
  end.

Definition sent (n : nat) : list JsValue := intervals n counter_init.

End ChildJs.

(** ** The parent process: child handles and the event loop *)
Module Node.

(** A [ChildProcess] object as the parent sees it: the file it runs, the
    messages passed to [.send] so far, and the listeners registered with
    [.on]. *)
Record ChildProcess : Type := {
  cp_file : string;
  cp_sent : list JsValue;
  cp_on_message : list MessageListener;
  cp_on_exit : list ExitListener
}.

(** The parent: the [ChildProcess] objects it has created (a handle is an
    index into them), the number of requests its server has received (the
    [res] object of a request is named by its number), and its effects so
    far, oldest first. *)
Record Process : Type := {
  children : list ChildProcess;
  requests : nat;
  output : list Effect
}.

Definition init : Process :=
  {| children := []; requests := 0%nat; output := [] |}.

Definition set_children (cs : list ChildProcess) (p : Process) : Process :=
  {| children := cs; requests := requests p; output := output p |}.

Definition write (es : list Effect) (p : Process) : Process :=
  {| children := children p; requests := requests p;
     output := output p ++ es |}.

(** [fork(file)] and [spawn(command)]: a new handle with nothing sent and no
    listener. *)
Definition fork (file : string) (p : Process) : nat * Process :=
  (length (children p),
   set_children
     (children p ++
      [{| cp_file := file; cp_sent := []; cp_on_message := [];
          cp_on_exit := [] |}]) p).

(** [child.send(msg)] *)
Definition send (child : nat) (msg : JsValue) (p : Process) : Process :=
  set_children
    (alter (fun c => {| cp_file := cp_file c; cp_sent := cp_sent c ++ [msg];
                        cp_on_message := cp_on_message c;
                        cp_on_exit := cp_on_exit c |}) child (children p)) p.

(** [child.on('message', listener)] *)
Definition on_message (child : nat) (l : MessageListener) (p : Process)
  : Process :=
  set_children
    (alter (fun c => {| cp_file := cp_file c; cp_sent := cp_sent c;
                        cp_on_message := cp_on_message c ++ [l];
                        cp_on_exit := cp_on_exit c |}) child (children p)) p.

(** [child.on('exit', listener)] *)
Definition on_exit (child : nat) (l : ExitListener) (p : Process) : Process :=
  set_children
    (alter (fun c => {| cp_file := cp_file c; cp_sent := cp_sent c;
                        cp_on_message := cp_on_message c;
                        cp_on_exit := cp_on_exit c ++ [l] |}) child
       (children p)) p.

Definition run_message_listener (msg : JsValue) (l : MessageListener)
  : list Effect :=
  match l with
  | LogMessageFromChild => [ConsoleLog "Message from child" msg]
  | RespondWithSum res => [ResEnd res (Template "Sum is " msg)]
  end.

Definition run_exit_listener (code : option Z) (signal : option string)
    (l : ExitListener) : list Effect :=
  match l with
  | LogExit => [ConsoleLogExit code signal]
  end.

(** Lines 51-58: [const child = spawn('pwd'); child.on('exit', ...)].  The
    [data] listeners on the child's stdout and stderr (lines 81-87) are left
    out: no stream is modelled. *)
Definition spawn_pwd (p : Process) : Process :=
  let (child, p) := fork "pwd" p in
  on_exit child LogExit p.

(** [parent.js], lines 293-299. *)
Definition parent_js (p : Process) : Process :=
  let (forked, p) := fork "child.js" p in
  let p := on_message forked LogMessageFromChild p in
  send forked (JObj [("hello"%string, JStr "world")]) p.

(** The server's request listener, lines 379-389. *)
Definition server_on_request (url : string) (p : Process) : Process :=
  let res := requests p in
  let p := {| children := children p; requests := S res;
              output := output p |} in
  if String.eqb url "/compute" then
    let (compute, p) := fork "compute.js" p in
    let p := send compute (JStr "start") p in
    on_message compute (RespondWithSum res) p
  else
    write [ResEnd res (Plain "Ok")] p.

(** The events the event loop hands to the program. *)
Inductive Event : Type :=
| Request (url : string)
| Message (child : nat) (msg : JsValue)
| Exit (child : nat) (code : option Z) (signal : option string).

(** Emitting an event runs the listeners registered for it, in the order of
    their registration; an event nobody listens to does nothing. *)
Definition dispatch (e : Event) (p : Process) : Process :=
  match e with
  | Request url => server_on_request url p
  | Message child msg =>
      match children p !! child with
      | Some c => write (flat_map (run_message_listener msg) (cp_on_message c)) p
      | None => p
      end
  | Exit child code signal =>
      match children p !! child with
      | Some c => write (flat_map (run_exit_listener code signal) (cp_on_exit c)) p
      | None => p
      end
  end.

Fixpoint run (events : list Event) (p : Process) : Process :=
  match events with
  | [] => p
  | e :: events' => run events' (dispatch e p)
  end.

(** What has been delivered to the caller behind [res]: the [res.end] calls
    on it. *)
Definition is_end_of (res : nat) (e : Effect) : bool :=
  match e with
  | ResEnd r _ => Nat.eqb r res
  | _ => false
  end.

Definition delivered_to (res : nat) (p : Process) : list Effect :=
  List.filter (is_end_of res) (output p).

(** The messages of child [child] among [events], oldest first. *)
Fixpoint messages_from (child : nat) (events : list Event) : list JsValue :=
  match events with
  | [] => []
  | Message c msg :: events' =>
      if Nat.eqb c child then msg :: messages_from child events'
      else messages_from child events'
  | _ :: events' => messages_from child events'
  end.

(** The [res] whose response child [child] was forked for. *)
Definition owner (p : Process) (child : nat) : option nat :=
  match children p !! child with
  | Some c =>
      match cp_on_message c with
      | [RespondWithSum res] => Some res
      | _ => None
      end
  | None => None
  end.

Definition is_compute_request (e : Event) : bool :=
  match e with
  | Request url => String.eqb url "/compute"
  | _ => false
  end.

(** The [ChildProcess] object a [/compute] request leaves behind. *)
Definition compute_child (res : nat) : ChildProcess :=
  {| cp_file := "compute.js"; cp_sent := [JStr "start"];
     cp_on_message := [RespondWithSum res]; cp_on_exit := [] |}.

Definition answers_known_request (p : Process) (e : Effect) : Prop :=
  match e with
  | ResEnd res _ => (res < requests p)%nat
  | _ => True
  end.

(** The shape of a process that has only run the server: its children are
    the workers forked for the requests [owners], one each, and every
    response was ended for a request already received. *)
Definition served (p : Process) (owners : list nat) : Prop :=
  children p = compute_child <$> owners /\
  NoDup owners /\
  Forall (fun res => (res < requests p)%nat) owners /\
  Forall (answers_known_request p) (output p).

(** One whole [/compute] exchange: the request forks the worker, the worker
    program answers every message it was sent, and the answers come back as
    [message] events.  [worker] is the worker's [message] handler. *)
Fixpoint worker_replies (worker : JsValue -> option (list JsValue))
    (sent : list JsValue) : option (list JsValue) :=
  match sent with
  | [] => Some []
  | msg :: sent' =>
      r ← worker msg;
      rs ← worker_replies worker sent';
      Some (r ++ rs)
  end.

Definition session (worker : JsValue -> option (list JsValue))
  : option Process :=
  let p := dispatch (Request "/compute") init in
  c ← children p !! 0%nat;
  replies ← worker_replies worker (cp_sent c);
  Some (run (map (Message 0%nat) replies) p).

(** The worker the server forks is [compute.js]. *)
Definition compute_session : option Process :=
  session ComputeJs.on_message.

End Node.

(** ** The first server (lines 338-349): the computation in the event loop *)
Module BlockingServer.
Import Node.

(** The request listener of lines 340-347: [/compute] runs [longComputation]
    in the listener itself and ends the response with the sum; every other
    request is answered ['Ok'].  [None] stands for a listener that has not
    returned. *)
Definition server_on_request (url : string) (p : Process) : option Process :=
  let res := requests p in
  let p := {| children := children p; requests := S res;
              output := output p |} in
  if String.eqb url "/compute" then
    sum ← LongComputation.longComputation;
    Some (write [ResEnd res (Template "Sum is " (JNum sum))] p)
  else
    Some (write [ResEnd res (Plain "Ok")] p).

(** The requests are handled one after the other. *)
Fixpoint serve (urls : list string) (p : Process) : option Process :=
  match urls with
  | [] => Some p
  | url :: urls' =>
      p' ← server_on_request url p;
      serve urls' p'
  end.

(** What a caller is answered, given the number [sum] the computation
    returns. *)
Definition response_body (sum : Z) (url : string) : Body :=
  if String.eqb url "/compute" then Template "Sum is " (JNum sum)
  else Plain "Ok".

End BlockingServer.

(** ** The channel between a child and its parent *)
Module Channel.
Import Node.

(** Modelled from the spec: the channel that [fork] sets up belongs to the
    Node runtime and is not in the source.  Section 6 of the spec gives it as
    "bidirectional, ordered, message-boundary-preserving"; the direction
    child to parent is a queue of whole messages per handle.  A child puts a
    message at the back with [process.send]; the parent's event loop takes
    the front one and emits [message] on the handle. *)
Inductive Step : Type :=
| ChildSends (child : nat) (msg : JsValue)
| Delivers (child : nat).

(** The parent, the queues, and the history of the events emitted so far. *)
Record System : Type := {
  proc : Process;
  in_flight : gmap nat (list JsValue);
  emitted : list Event
}.

Definition pending (child : nat) (s : System) : list JsValue :=
  default [] (in_flight s !! child).

Definition step (st : Step) (s : System) : System :=
  match st with
  | ChildSends child msg =>
      {| proc := proc s;
         in_flight := <[child := pending child s ++ [msg]]> (in_flight s);
         emitted := emitted s |}
  | Delivers child =>
      match pending child s with
      | msg :: rest =>
          {| proc := dispatch (Message child msg) (proc s);
             in_flight := <[child := rest]> (in_flight s);
             emitted := emitted s ++ [Message child msg] |}
      | [] => s
      end
  end.

Fixpoint exec (schedule : list Step) (s : System) : System :=
  match schedule with
  | [] => s
  | st :: schedule' => exec schedule' (step st s)
  end.

Definition start (p : Process) : System :=
  {| proc := p; in_flight := ∅; emitted := [] |}.

(** The messages child [child] sends in a schedule, oldest first. *)
Fixpoint sent_by (child : nat) (schedule : list Step) : list JsValue :=
  match schedule with
  | [] => []
  | ChildSends c msg :: schedule' =>
      if Nat.eqb c child then msg :: sent_by child schedule'
      else sent_by child schedule'
  | _ :: schedule' => sent_by child schedule'
  end.

End Channel.

(** ** [spawn] and the [env] option (lines 201-216) *)
Module Spawn.

Inductive Stdio : Type := Pipe | Inherit | Ignore.

(** The options the source passes to [spawn]; an option left out of the
    object literal is [None] (or [false]). *)
Record Options : Type := {
  stdio : option Stdio;
  shell : bool;
  cwd : option string;
  env : option (gmap string JsValue);
  detached : bool
}.

Definition no_options : Options :=
  {| stdio := None; shell := false; cwd := None; env := None;
     detached := false |}.

(** Lines 202-205: "The default for this option is 'process.env' [...] we can
    simply pass an empty object as the env option or new values there to be
    considered as the only environment variables". *)
Definition child_env (process_env : gmap string JsValue) (o : Options)
  : gmap string JsValue :=
  match env o with
  | Some e => e
  | None => process_env
  end.

(** [$NAME] as the child's shell expands it. *)
Definition expand (name : string) (process_env : gmap string JsValue)
    (o : Options) : option JsValue :=
  child_env process_env o !! name.

(** Lines 208-212: [spawn('echo $ANSWER', { stdio: 'inherit', shell: true,
    env: { ANSWER: 23 } })]. *)
Definition echo_answer_options : Options :=
  {| stdio := Some Inherit; shell := true; cwd := None;
     env := Some {[ "ANSWER"%string := JNum 23 ]}; detached := false |}.

(** Lines 180-183: [spawn('find . -type f', { stdio: 'inherit', shell: true })]. *)
Definition find_options : Options :=
  {| stdio := Some Inherit; shell := true; cwd := None; env := None;
     detached := false |}.

End Spawn.

(** * Facts *)

Import LongComputation.

(** ** Numbers *)

Example js_add_matches_binary64 :
  forallb agrees_with_binary64 rounding_samples = true.
Proof. vm_compute. reflexivity. Qed.

Lemma log2_small (a : Z) : 0 <= a < 2 ^ 53 -> Z.log2 a < 53.
Proof.
  intros [H0 H1].
  destruct (Z.eq_dec a 0) as [-> | Hne]; [reflexivity |].
  apply Z.log2_lt_pow2; lia.
Qed.

(** Integers up to 2^53 in magnitude are represented exactly. *)
Lemma round53_exact (x : Z) : Z.abs x <= 2 ^ 53 -> round53 x = x.
Proof.
  intros Hx.
  destruct (Z.eq_dec (Z.abs x) (2 ^ 53)) as [Heq | Hne].
  - assert (x = 2 ^ 53 \/ x = - 2 ^ 53) as [-> | ->] by lia;
      vm_compute; reflexivity.
  - unfold round53, precision.
    assert (Z.log2 (Z.abs x) < 53) by (apply log2_small; lia).
    destruct (Z.leb_spec (Z.log2 (Z.abs x) - (53 - 1)) 0); [reflexivity | lia].
Qed.

(** Rounding never takes a value at or above 2^53 below 2^53. *)
Lemma round53_large (x : Z) : 2 ^ 53 <= x -> 2 ^ 53 <= round53 x.
Proof.
  intros Hx. unfold round53, precision.
  destruct (Z.leb_spec (Z.log2 (Z.abs x) - (53 - 1)) 0) as [He | He];
    [assumption |].
  rewrite (Z.abs_eq x) in * by lia.
  set (e := Z.log2 x - (53 - 1)) in *.
  assert (Hpow : 2 ^ e * 2 ^ 52 <= x).
  { rewrite <- Z.pow_add_r by lia.
    replace (e + 52) with (Z.log2 x) by (unfold e; lia).
    apply Z.log2_spec. lia. }
  assert (He2 : 2 <= 2 ^ e).
  { change 2 with (2 ^ 1) at 1. apply Z.pow_le_mono_r; lia. }
  assert (Hq : 2 ^ 52 <= Z.shiftr x e).
  { rewrite Z.shiftr_div_pow2 by lia.
    apply Z.div_le_lower_bound; lia. }
  rewrite Z.sgn_pos by lia. rewrite Z.shiftl_mul_pow2 by lia.
  set (q := Z.shiftr x e) in *.
  assert (Hq' : q <= (if Z.land x (Z.ones e) <? Z.shiftl 1 (e - 1) then q
                      else if Z.shiftl 1 (e - 1) <? Z.land x (Z.ones e)
                           then q + 1
                           else if Z.even q then q else q + 1)).
  { repeat match goal with |- context [if ?b then _ else _] => destruct b end;
      lia. }
  nia.
Qed.

Lemma js_add_exact (a b : Z) : Z.abs (a + b) <= 2 ^ 53 -> js_add a b = a + b.
Proof. apply round53_exact. Qed.

(** At 2^53 adding one is lost: the tie rounds to the even significand. *)
Lemma js_add_saturates : js_add (2 ^ 53) 1 = 2 ^ 53.
Proof. vm_compute. reflexivity. Qed.

(** ** The loop of [longComputation] *)

Example for_loop_10 : for_loop 10 10 0 0 = Some 45.
Proof. vm_compute. reflexivity. Qed.

Example for_loop_out_of_fuel : for_loop 9 10 0 0 = None.
Proof. vm_compute. reflexivity. Qed.

Example sum_of_integers_below_10 : sum_of_integers_below 10 = 45.
Proof. vm_compute. reflexivity. Qed.

(** The last 3000 rounds of the loop, from a running sum of the size it has
    there, and 3000 rounds across 2^53. *)
Example for_loop_matches_binary64 :
  for_loop_agrees_with_binary64 3000 1000000000 999997000 499997000000000000
  && for_loop_agrees_with_binary64 3000 134219000 134216000 9007199254000000
  && for_loop_agrees_with_binary64 100 100 0 0 = true.
Proof. vm_compute. reflexivity. Qed.

Lemma for_loop_unfold (fuel : nat) (limit i sum : Z) :
  for_loop fuel limit i sum =
  if js_lt i limit then
    match fuel with
    | O => None
    | S fuel' => for_loop fuel' limit (js_add i 1) (js_add sum i)
    end
  else Some sum.
Proof. destruct fuel; reflexivity. Qed.

(** With [k] rounds left and at least [k] fuel the loop returns the fold of
    [js_add] over the remaining counter values. *)
Lemma for_loop_fold (k : nat) :
  forall (fuel : nat) (limit i sum : Z),
    0 <= i -> limit <= 2 ^ 53 -> limit - i = Z.of_nat k -> (k <= fuel)%nat ->
    for_loop fuel limit i sum =
    Some (fold_left js_add (map Z.of_nat (seq (Z.to_nat i) k)) sum).
Proof.
  induction k as [| k IH]; intros fuel limit i sum Hi Hlim Hk Hfuel;
    rewrite for_loop_unfold; unfold js_lt.
  - destruct (Z.ltb_spec i limit); [lia | reflexivity].
  - destruct (Z.ltb_spec i limit); [| lia].
    destruct fuel as [| fuel]; [lia |].
    rewrite (js_add_exact i 1) by lia.
    rewrite (IH fuel limit (i + 1) (js_add sum i)) by lia.
    replace (Z.to_nat (i + 1)) with (S (Z.to_nat i)) by lia.
    cbn [seq map fold_left]. rewrite Z2Nat.id by lia. reflexivity.
Qed.

Lemma for_loop_from_zero (limit : Z) (fuel : nat) :
  0 <= limit <= 2 ^ 53 -> (Z.to_nat limit <= fuel)%nat ->
  for_loop fuel limit 0 0 = Some (sum_of_integers_below (Z.to_nat limit)).
Proof.
  intros Hlim Hfuel.
  rewrite (for_loop_fold (Z.to_nat limit)) by lia.
  reflexivity.
Qed.

(** Any fuel from [1e9] on gives the same result. *)
Lemma longComputation_fuel_enough (fuel : nat) :
  (Z.to_nat loop_bound <= fuel)%nat ->
  longComputation_fuel fuel = longComputation.
Proof.
  intros Hfuel. unfold longComputation, longComputation_fuel.
  rewrite !for_loop_from_zero; unfold loop_bound in *; try lia; reflexivity.
Qed.

Lemma longComputation_fold :
  longComputation = Some (sum_of_integers_below (Z.to_nat loop_bound)).
Proof.
  unfold longComputation, longComputation_fuel.
  apply for_loop_from_zero; unfold loop_bound; lia.
Qed.

(** While the exact sum fits 53 bits the running sum is exact; once it has
    left that range it never comes back below 2^53. *)
Lemma fold_js_add_exact_or_large (k : nat) :
  forall (n : nat) (s : Z),
    exact_sum n s \/ 2 ^ 53 <= s ->
    let s' := fold_left js_add (map Z.of_nat (seq n k)) s in
    exact_sum (n + k) s' \/ 2 ^ 53 <= s'.
Proof.
  induction k as [| k IH]; intros n s Hs; cbn [seq map fold_left].
  - replace (n + 0)%nat with n by lia. exact Hs.
  - replace (n + S k)%nat with (S n + k)%nat by lia.
    apply IH.
    destruct (Z_le_gt_dec (2 ^ 53) (s + Z.of_nat n)) as [Hbig | Hsmall].
    + right. apply round53_large. exact Hbig.
    + destruct Hs as [Hs | Hs]; [| lia].
      left. unfold exact_sum in *.
      rewrite js_add_exact by nia. nia.
Qed.

Lemma fold_js_add_exact (k : nat) :
  forall (n : nat) (s : Z),
    exact_sum n s ->
    Z.of_nat (n + k) * (Z.of_nat (n + k) - 1) <= 2 ^ 54 ->
    exact_sum (n + k) (fold_left js_add (map Z.of_nat (seq n k)) s).
Proof.
  induction k as [| k IH]; intros n s Hs Hfit; cbn [seq map fold_left].
  - replace (n + 0)%nat with n by lia. exact Hs.
  - replace (n + S k)%nat with (S n + k)%nat in * by lia.
    apply IH; [| exact Hfit].
    unfold exact_sum in *.
    rewrite js_add_exact by nia. nia.
Qed.

Lemma sum_of_integers_below_exact_or_large (n : nat) :
  exact_sum n (sum_of_integers_below n) \/ 2 ^ 53 <= sum_of_integers_below n.
Proof.
  apply (fold_js_add_exact_or_large n 0 0).
  left. unfold exact_sum. lia.
Qed.

Lemma sum_of_integers_below_exact (n : nat) :
  Z.of_nat n * (Z.of_nat n - 1) <= 2 ^ 54 ->
  exact_sum n (sum_of_integers_below n).
Proof.
  intros Hfit. apply (fold_js_add_exact n 0 0); [unfold exact_sum; lia |].
  exact Hfit.
Qed.

(** The running sum of [longComputation] has left the exact range. *)
Lemma longComputation_large :
  exists v, longComputation = Some v /\ 2 ^ 53 <= v.
Proof.
  exists (sum_of_integers_below (Z.to_nat loop_bound)).
  split; [apply longComputation_fold |].
  assert (Hn : Z.of_nat (Z.to_nat loop_bound) = 1000000000)
    by (apply Z2Nat.id; unfold loop_bound; lia).
  generalize dependent (Z.to_nat loop_bound). intros n Hn.
  destruct (sum_of_integers_below_exact_or_large n) as [H | H]; [| exact H].
  unfold exact_sum in H. rewrite Hn in H. lia.
Qed.

(** With the bound [1000001] instead of [1e9] the loop would return
    [500000500000]. *)
Lemma for_loop_1000001 :
  for_loop (Z.to_nat 1000001) 1000001 0 0 = Some 500000500000.
Proof.
  rewrite for_loop_from_zero by lia.
  assert (Hn : Z.of_nat (Z.to_nat 1000001) = 1000001) by (apply Z2Nat.id; lia).
  generalize dependent (Z.to_nat 1000001). intros n Hn.
  pose proof (sum_of_integers_below_exact n) as H.
  unfold exact_sum in H. rewrite Hn in H.
  assert (Hv : sum_of_integers_below n = 500000500000) by lia.
  rewrite Hv. reflexivity.
Qed.

(** ** [compute.js] and one [/compute] exchange

    From here on [longComputation] is only used through the lemmas above. *)

Import Node.

#[global] Opaque longComputation.

Lemma compute_js_reply (v : Z) (msg : JsValue) :
  longComputation = Some v -> ComputeJs.on_message msg = Some [JNum v].
Proof. intros Hv. unfold ComputeJs.on_message. rewrite Hv. reflexivity. Qed.

Lemma request_compute_init :
  dispatch (Request "/compute") init =
  {| children := [ {| cp_file := "compute.js"; cp_sent := [JStr "start"];
                      cp_on_message := [RespondWithSum 0];
                      cp_on_exit := [] |} ];
     requests := 1; output := [] |}.
Proof. reflexivity. Qed.

Lemma session_output (worker : JsValue -> option (list JsValue)) (v : Z) :
  (forall msg, worker msg = Some [JNum v]) ->
  session worker =
  Some {| children := [ {| cp_file := "compute.js"; cp_sent := [JStr "start"];
                           cp_on_message := [RespondWithSum 0];
                           cp_on_exit := [] |} ];
          requests := 1;
          output := [ResEnd 0 (Template "Sum is " (JNum v))] |}.
Proof.
  intros Hworker. unfold session. rewrite request_compute_init.
  cbn [children lookup list_lookup mbind option_bind cp_sent worker_replies].
  rewrite Hworker. reflexivity.
Qed.

Lemma compute_session_output (v : Z) :
  longComputation = Some v ->
  compute_session =
  Some {| children := [ {| cp_file := "compute.js"; cp_sent := [JStr "start"];
                           cp_on_message := [RespondWithSum 0];
                           cp_on_exit := [] |} ];
          requests := 1;
          output := [ResEnd 0 (Template "Sum is " (JNum v))] |}.
Proof.
  intros Hv. unfold compute_session. apply session_output.
  intros msg. apply compute_js_reply. exact Hv.
Qed.


(** The worker's answer to the task [{op: "sum", to: 1000000}] is not
    [500000500000]. *)
Lemma sum_task_reply_differs :
  exists v : Z,
    ComputeJs.on_message
      (JObj [("op"%string, JStr "sum"); ("to"%string, JNum 1000000)]) =
    Some [JNum v] /\
    v <> 500000500000.
Proof.
  destruct longComputation_large as [v [Hv Hlarge]].
  exists v. split.
  - apply compute_js_reply. exact Hv.
  - clear Hv. lia.
Qed.

(** C2, as the code has it: the server sends the string ['start'], which
    carries no task; whatever the worker receives it answers with the number
    [v] that [longComputation] returns (the running sum of [0 .. 10^9 - 1],
    which is above 2^53), and the response of the request is ended with
    [Sum is v]. *)
Theorem compute_session_sum :
  exists v : Z,
    longComputation = Some v /\
    2 ^ 53 <= v /\
    (forall task : JsValue, ComputeJs.on_message task = Some [JNum v]) /\
    output <$> compute_session =
    Some [ResEnd 0 (Template "Sum is " (JNum v))].
Proof.
  destruct longComputation_large as [v [Hv Hlarge]].
  exists v.
  split; [exact Hv |]. split; [exact Hlarge |]. split.
  - intros task. apply compute_js_reply. exact Hv.
  - rewrite (compute_session_output v Hv). reflexivity.
Qed.

(** ** The server: what a run from [init] looks like *)

Lemma run_app (events1 events2 : list Event) (p : Process) :
  run (events1 ++ events2) p = run events2 (run events1 p).
Proof.
  revert p. induction events1 as [| e events1 IH]; intros p; [reflexivity |].
  cbn [app run]. apply IH.
Qed.

Lemma server_on_request_compute (p : Process) :
  server_on_request "/compute" p =
  {| children := children p ++ [compute_child (requests p)];
     requests := S (requests p); output := output p |}.
Proof.
  unfold server_on_request.
  change (String.eqb "/compute" "/compute") with true. cbv iota.
  unfold fork, send, on_message, set_children. cbn [children requests output].
  rewrite !alter_app_r_alt by (rewrite ?length_alter, ?length_app; cbn; lia).
  rewrite ?length_alter, ?length_app, Nat.sub_diag. reflexivity.
Qed.

Lemma server_on_request_other (url : string) (p : Process) :
  String.eqb url "/compute" = false ->
  server_on_request url p =
  {| children := children p; requests := S (requests p);
     output := output p ++ [ResEnd (requests p) (Plain "Ok")] |}.
Proof. intros Hurl. unfold server_on_request. rewrite Hurl. reflexivity. Qed.

Lemma served_init : served init [].
Proof.
  unfold served, init. cbn.
  repeat split; constructor.
Qed.

Lemma served_owner (p : Process) (owners : list nat) (child res : nat) :
  served p owners -> owner p child = Some res <-> owners !! child = Some res.
Proof.
  intros (Hc & _). unfold owner. rewrite Hc, list_lookup_fmap.
  destruct (owners !! child) as [r |]; cbn; [| split; discriminate].
  split; congruence.
Qed.

Lemma dispatch_served (e : Event) (p : Process) (owners : list nat) :
  served p owners ->
  served (dispatch e p)
    (owners ++ if is_compute_request e then [requests p] else []).
Proof.
  intros (Hc & Hnd & Hlt & Hout).
  destruct e as [url | child msg | child code signal]; cbn [dispatch is_compute_request].
  - destruct (String.eqb url "/compute") eqn:Hurl.
    + apply String.eqb_eq in Hurl. subst url.
      rewrite server_on_request_compute. unfold served. cbn [children requests output].
      split; [rewrite Hc, fmap_app; reflexivity |].
      split.
      { apply NoDup_app. split; [exact Hnd |]. split; [| apply NoDup_singleton].
        intros x Hx Hx'. apply list_elem_of_singleton in Hx'. subst x.
        rewrite Forall_forall in Hlt. apply Hlt in Hx. lia. }
      split.
      { apply Forall_app. split.
        - eapply Forall_impl; [exact Hlt |]. cbn. intros; lia.
        - apply Forall_singleton. lia. }
      eapply Forall_impl; [exact Hout |].
      intros [label v | code signal | res body]; cbn; intros; try exact I; lia.
    + rewrite (server_on_request_other _ _ Hurl), app_nil_r.
      unfold served. cbn [children requests output].
      split; [exact Hc |]. split; [exact Hnd |].
      split.
      { eapply Forall_impl; [exact Hlt |]. cbn. intros; lia. }
      apply Forall_app. split.
      * eapply Forall_impl; [exact Hout |].
        intros [label v | code signal | res body]; cbn; intros; try exact I; lia.
      * apply Forall_singleton. cbn. lia.
  - rewrite app_nil_r, Hc, list_lookup_fmap.
    destruct (owners !! child) as [r |] eqn:Hr; cbn [fmap option_fmap option_map];
      [| repeat split; assumption].
    unfold served, write. cbn [children requests output cp_on_message compute_child
                                 flat_map run_message_listener app].
    split; [exact Hc |]. split; [exact Hnd |]. split; [exact Hlt |].
    apply Forall_app. split; [exact Hout |].
    apply Forall_singleton. cbn.
    rewrite Forall_lookup in Hlt. exact (Hlt _ _ Hr).
  - rewrite app_nil_r, Hc, list_lookup_fmap.
    destruct (owners !! child) as [r |] eqn:Hr; cbn [fmap option_fmap option_map];
      [| repeat split; assumption].
    unfold served, write. cbn [children requests output cp_on_exit compute_child
                                 flat_map].
    rewrite app_nil_r. repeat split; assumption.
Qed.


Lemma run_served (events : list Event) :
  forall (p : Process) (owners : list nat),
    served p owners ->
    exists owners',
      served (run events p) (owners ++ owners') /\
      length owners' = length (List.filter is_compute_request events).
Proof.
  induction events as [| e events IH]; intros p owners Hp; cbn [run List.filter].
  - exists []. rewrite app_nil_r. split; [exact Hp | reflexivity].
  - destruct (IH _ _ (dispatch_served e p owners Hp)) as (owners' & Hs & Hlen).
    rewrite <- app_assoc in Hs.
    eexists. split; [exact Hs |].
    rewrite length_app, Hlen.
    destruct (is_compute_request e); reflexivity.
Qed.


Lemma served_run_init (events : list Event) :
  exists owners,
    served (run events init) owners /\
    length owners = length (List.filter is_compute_request events).
Proof.
  destruct (run_served events init [] served_init) as (owners & Hs & Hlen).
  exists owners. split; assumption.
Qed.

(** No response has been ended yet for a request that has not arrived. *)
Lemma delivered_to_future (p : Process) (owners : list nat) (res : nat) :
  served p owners -> (requests p <= res)%nat -> delivered_to res p = [].
Proof.
  intros (_ & _ & _ & Hout) Hres. unfold delivered_to.
  induction (output p) as [| e out IH]; [reflexivity |].
  apply Forall_cons in Hout as [He Hout]. cbn [List.filter].
  destruct e as [label v | code signal | r body]; cbn [is_end_of];
    try (apply IH; exact Hout).
  cbn in He. destruct (Nat.eqb_spec r res); [lia | apply IH; exact Hout].
Qed.

(** An [exit] listener, where one is registered (line 55), is run when the
    child exits. *)
Example spawn_pwd_exit_logged :
  output (run [Exit 0 (Some 0) None] (spawn_pwd init)) =
  [ConsoleLogExit (Some 0) None].
Proof. reflexivity. Qed.





Example two_requests_answered_out_of_order :
  output (run [Request "/compute"; Request "/compute";
               Message 1 (JNum 7); Message 0 (JNum 5)] init) =
  [ResEnd 1 (Template "Sum is " (JNum 7)); ResEnd 0 (Template "Sum is " (JNum 5))].
Proof. reflexivity. Qed.

(** After one [/compute] exchange has received its result the worker's handle
    is still there with its listener, and a further message from the same
    worker ends the response once more. *)
Lemma handle_survives_result :
  children (run [Request "/compute"; Message 0 (JNum 5)] init) =
  [compute_child 0] /\
  output (run [Request "/compute"; Message 0 (JNum 5); Message 0 (JNum 6)] init) =
  [ResEnd 0 (Template "Sum is " (JNum 5)); ResEnd 0 (Template "Sum is " (JNum 6))].
Proof. split; reflexivity. Qed.

(** C6, as the code has it: the handles the process holds are only ever added
    to, one per [/compute] request at the moment it forks; no event changes
    or removes one, be it a result or an exit.  After any run the process
    holds one handle per [/compute] request it has served. *)
Theorem handles_are_never_removed :
  forall (before after : list Event),
    children (run before init) `prefix_of`
      children (run (before ++ after) init) /\
    length (children (run before init)) =
    length (List.filter is_compute_request before).
Proof.
  intros before after.
  destruct (served_run_init before) as (owners & Hp & Hlen).
  destruct (run_served after _ _ Hp) as (owners' & Hp' & _).
  rewrite run_app.
  destruct Hp as (Hc & _). destruct Hp' as (Hc' & _).
  rewrite Hc, Hc', fmap_app, length_fmap.
  split; [apply prefix_app_r; reflexivity | exact Hlen].
Qed.

(** ** [child.js]: the counter *)

Lemma counter_after_shift (n : nat) :
  forall c : Z,
    ChildJs.counter_after n (js_add c 1) = js_add (ChildJs.counter_after n c) 1.
Proof.
  induction n as [| n IH]; intros c; [reflexivity |].
  cbn [ChildJs.counter_after ChildJs.on_interval snd]. apply IH.
Qed.

Lemma counter_after_succ (n : nat) (c : Z) :
  ChildJs.counter_after (S n) c = js_add (ChildJs.counter_after n c) 1.
Proof.
  cbn [ChildJs.counter_after ChildJs.on_interval snd]. apply counter_after_shift.
Qed.

(** The [j]-th firing (counting from 0) sends the counter as [j] firings have
    left it. *)
Lemma intervals_lookup (n : nat) :
  forall (c : Z) (j : nat),
    (j < n)%nat ->
    ChildJs.intervals n c !! j =
    Some (ChildJs.counter_message (ChildJs.counter_after j c)).
Proof.
  induction n as [| n IH]; intros c j Hj; [lia |].
  cbn [ChildJs.intervals ChildJs.on_interval].
  destruct j as [| j]; [reflexivity |].
  cbn [lookup list_lookup]. rewrite IH by lia.
  cbn [ChildJs.counter_after ChildJs.on_interval snd]. reflexivity.
Qed.

(** Up to 2^53 the counter is the number of firings. *)
Lemma counter_after_exact (n : nat) :
  Z.of_nat n <= 2 ^ 53 -> ChildJs.counter_after n 0 = Z.of_nat n.
Proof.
  induction n as [| n IH]; intros Hn; [reflexivity |].
  rewrite counter_after_succ, IH by lia.
  rewrite js_add_exact by lia. lia.
Qed.

(** One firing later it is still 2^53. *)
Lemma counter_after_stalls (n : nat) :
  Z.of_nat n = 2 ^ 53 -> ChildJs.counter_after (S n) 0 = 2 ^ 53.
Proof.
  intros Hn. rewrite counter_after_succ, counter_after_exact by lia.
  rewrite Hn. apply js_add_saturates.
Qed.

Lemma sent_stalls (n : nat) :
  Z.of_nat n = 2 ^ 53 ->
  ChildJs.sent (S (S n)) !! S n = Some (ChildJs.counter_message (2 ^ 53)).
Proof.
  intros Hn. unfold ChildJs.sent, ChildJs.counter_init.
  rewrite intervals_lookup by lia.
  rewrite (counter_after_stalls n Hn). reflexivity.
Qed.

Example sent_4 :
  ChildJs.sent 4 =
  [ChildJs.counter_message 0; ChildJs.counter_message 1;
   ChildJs.counter_message 2; ChildJs.counter_message 3].
Proof. reflexivity. Qed.

(** The message number 2^53 + 2 carries the counter 2^53, not 2^53 + 1: the
    counter is a double and [2^53 + 1] rounds back to [2^53]. *)
Lemma child_counter_stalls :
  ChildJs.sent (Z.to_nat 9007199254740994)
    !! (Z.to_nat 9007199254740994 - 1)%nat =
  Some (ChildJs.counter_message 9007199254740992) /\
  ChildJs.counter_message 9007199254740992 <>
  ChildJs.counter_message (9007199254740994 - 1).
Proof.
  split.
  - assert (Hk : Z.to_nat 9007199254740994 =
                 S (S (Z.to_nat 9007199254740992))) by lia.
    assert (Hn : Z.of_nat (Z.to_nat 9007199254740992) = 2 ^ 53)
      by (rewrite Z2Nat.id by lia; reflexivity).
    rewrite Hk. generalize dependent (Z.to_nat 9007199254740992).
    intros n _ Hn.
    replace (S (S n) - 1)%nat with (S n) by lia.
    rewrite (sent_stalls n Hn). reflexivity.
  - unfold ChildJs.counter_message. intros H. inversion H.
Qed.

(** C10, as the code has it: for [1 <= k <= 2^53 + 1] the [k]-th message the
    child sends is [{counter: k - 1}]; each firing sends the current counter
    and then adds one to it. *)
Theorem child_counter_messages :
  forall (n k : nat),
    (1 <= k <= n)%nat ->
    Z.of_nat k <= 2 ^ 53 + 1 ->
    ChildJs.sent n !! (k - 1)%nat =
    Some (ChildJs.counter_message (Z.of_nat k - 1)).
Proof.
  intros n k Hk Hbound. unfold ChildJs.sent, ChildJs.counter_init.
  rewrite intervals_lookup by lia.
  rewrite counter_after_exact by lia.
  do 2 f_equal. lia.
Qed.

Lemma child_counter_messages_witness :
  ChildJs.sent 5 !! (3 - 1)%nat =
  Some (ChildJs.counter_message (Z.of_nat 3 - 1)).
Proof.
  apply (child_counter_messages 5 3); [lia | vm_compute; discriminate].
Defined.

(** ** The channel: order of delivery *)

Import Channel.

Lemma messages_from_app (child : nat) (events1 events2 : list Event) :
  messages_from child (events1 ++ events2) =
  messages_from child events1 ++ messages_from child events2.
Proof.
  induction events1 as [| e events1 IH]; [reflexivity |].
  destruct e as [url | c msg | c code signal]; cbn [app messages_from];
    try exact IH.
  destruct (Nat.eqb c child); cbn [app]; [f_equal |]; exact IH.
Qed.

(** One step keeps "emitted, then pending" equal to what was there plus what
    the step sends. *)
Lemma step_conserves (st : Step) (s : System) (child : nat) :
  messages_from child (emitted (step st s)) ++ pending child (step st s) =
  (messages_from child (emitted s) ++ pending child s) ++ sent_by child [st].
Proof.
  destruct st as [c msg | c]; cbn [step sent_by].
  - cbn [emitted]. unfold pending at 1. cbn [in_flight].
    destruct (Nat.eqb_spec c child) as [-> | Hne].
    + rewrite lookup_insert_eq. cbn [default from_option id]. rewrite app_assoc. reflexivity.
    + rewrite lookup_insert_ne by exact Hne. fold (pending child s). rewrite app_nil_r. reflexivity.
  - rewrite app_nil_r.
    destruct (pending c s) as [| msg rest] eqn:Hq; [reflexivity |].
    cbn [emitted]. unfold pending at 1. cbn [in_flight].
    rewrite messages_from_app. cbn [messages_from].
    destruct (Nat.eqb_spec c child) as [-> | Hne].
    + rewrite lookup_insert_eq, Hq. cbn [default from_option id].
      rewrite <- app_assoc. reflexivity.
    + rewrite lookup_insert_ne by exact Hne. fold (pending child s). rewrite app_nil_r. reflexivity.
Qed.

Lemma sent_by_cons (child : nat) (st : Step) (schedule : list Step) :
  sent_by child (st :: schedule) = sent_by child [st] ++ sent_by child schedule.
Proof.
  destruct st as [c msg | c]; cbn [sent_by]; [| reflexivity].
  destruct (Nat.eqb c child); reflexivity.
Qed.

Lemma exec_conserves (schedule : list Step) :
  forall (s : System) (child : nat),
    messages_from child (emitted (exec schedule s)) ++
    pending child (exec schedule s) =
    (messages_from child (emitted s) ++ pending child s) ++
    sent_by child schedule.
Proof.
  induction schedule as [| st schedule IH]; intros s child.
  - cbn [exec sent_by]. rewrite app_nil_r. reflexivity.
  - cbn [exec]. rewrite (sent_by_cons child st schedule).
    rewrite IH, step_conserves, <- !app_assoc. reflexivity.
Qed.

(** The parent has handled exactly the events emitted, in that order, and
    they are all [message] events. *)
Lemma exec_emitted (schedule : list Step) :
  forall s : System,
    exists events,
      emitted (exec schedule s) = emitted s ++ events /\
      proc (exec schedule s) = run events (proc s) /\
      Forall (fun e => exists c msg, e = Message c msg) events.
Proof.
  induction schedule as [| st schedule IH]; intros s; cbn [exec].
  - exists []. rewrite app_nil_r. repeat split. constructor.
  - destruct (IH (step st s)) as (events & He & Hp & Hall).
    destruct st as [c msg | c]; cbn [step] in *.
    + exists events. repeat split; assumption.
    + destruct (pending c s) as [| msg rest];
        [exists events; repeat split; assumption |].
      cbn [emitted proc] in *.
      exists (Message c msg :: events). rewrite He, Hp, <- app_assoc.
      repeat split. constructor; [eauto | exact Hall].
Qed.

(** [parent.js] logs every message of its one child, and nothing else. *)
Lemma parent_js_logs (events : list Event) :
  forall p : Process,
    children p = children (parent_js init) ->
    Forall (fun e => exists c msg, e = Message c msg) events ->
    output (run events p) =
    output p ++
    map (ConsoleLog "Message from child") (messages_from 0 events).
Proof.
  induction events as [| e events IH]; intros p Hc Hev; cbn [run messages_from map].
  - rewrite app_nil_r. reflexivity.
  - apply Forall_cons in Hev as [(c & msg & ->) Hev].
    cbn [dispatch]. rewrite Hc.
    destruct c as [| c]; cbn [parent_js fork init children set_children
                               on_message send alter list_alter length app
                               lookup list_lookup cp_on_message].
    + rewrite IH by (try exact Hev; cbn [write children]; exact Hc).
      cbn [write output flat_map run_message_listener app Nat.eqb map].
      rewrite <- app_assoc. reflexivity.
    + rewrite IH by (try exact Hev; exact Hc). reflexivity.
Qed.

(** C3: on one handle, what the listener has observed followed by what is
    still in flight is what the child has sent, in the order it sent it, under
    every interleaving of sends and deliveries: nothing is reordered or lost,
    and once the queue is empty the listener of [parent.js] has logged every
    message in sending order.  Across two handles the order is open: the same
    sends are observed in either order. *)
Theorem messages_observed_in_order :
  (forall (p : Process) (schedule : list Step) (child : nat),
      let s := exec schedule (start p) in
      messages_from child (emitted s) ++ pending child s =
      sent_by child schedule /\
      proc s = run (emitted s) p) /\
  (forall schedule : list Step,
      let s := exec schedule (start (parent_js init)) in
      output (proc s) =
      map (ConsoleLog "Message from child") (messages_from 0 (emitted s))) /\
  (let two := run [Request "/compute"; Request "/compute"] init in
   output (proc (exec [ChildSends 0 (JNum 1); ChildSends 1 (JNum 2);
                       Delivers 0; Delivers 1] (start two))) =
   [ResEnd 0 (Template "Sum is " (JNum 1));
    ResEnd 1 (Template "Sum is " (JNum 2))] /\
   output (proc (exec [ChildSends 0 (JNum 1); ChildSends 1 (JNum 2);
                       Delivers 1; Delivers 0] (start two))) =
   [ResEnd 1 (Template "Sum is " (JNum 2));
    ResEnd 0 (Template "Sum is " (JNum 1))]).
Proof.
  split; [| split].
  - intros p schedule child s. split.
    + unfold s. rewrite exec_conserves. reflexivity.
    + destruct (exec_emitted schedule (start p)) as (events & He & Hp & _).
      unfold s. rewrite He, Hp. reflexivity.
  - intros schedule s.
    destruct (exec_emitted schedule (start (parent_js init)))
      as (events & He & Hp & Hall).
    unfold s. rewrite He, Hp. cbn [start emitted proc app].
    rewrite (parent_js_logs events (parent_js init) eq_refl Hall). reflexivity.
  - split; reflexivity.
Qed.

Example parent_js_run :
  output (proc (exec [ChildSends 0 (ChildJs.counter_message 0);
                      ChildSends 0 (ChildJs.counter_message 1);
                      Delivers 0; Delivers 0; Delivers 0]
                  (start (parent_js init)))) =
  [ConsoleLog "Message from child" (ChildJs.counter_message 0);
   ConsoleLog "Message from child" (ChildJs.counter_message 1)].
Proof. reflexivity. Qed.

(** ** [spawn]: the environment of the child *)

Import Spawn.

Example echo_answer :
  expand "ANSWER" {[ "HOME"%string := JStr "/home/me" ]} echo_answer_options =
  Some (JNum 23) /\
  expand "HOME" {[ "HOME"%string := JStr "/home/me" ]} echo_answer_options =
  None /\
  expand "HOME" {[ "HOME"%string := JStr "/home/me" ]} find_options =
  Some (JStr "/home/me").
Proof. repeat split. Qed.


(** * Further properties of the code *)

(** ** [longComputation]: number of rounds and accuracy *)

Lemma for_loop_runs_out (fuel : nat) :
  forall (limit i sum : Z),
    0 <= i -> limit <= 2 ^ 53 -> Z.of_nat fuel < limit - i ->
    for_loop fuel limit i sum = None.
Proof.
  induction fuel as [| fuel IH]; intros limit i sum Hi Hlim Hfuel;
    rewrite for_loop_unfold; unfold js_lt;
    destruct (Z.ltb_spec i limit); try lia; [reflexivity |].
  rewrite (js_add_exact i 1) by lia. apply IH; lia.
Qed.

(** X1: the loop of [longComputation] takes exactly [10^9] rounds: with fewer
    it has not finished, with [10^9] or more it returns, and always the same
    number. *)
Theorem longComputation_rounds :
  (forall fuel : nat,
      longComputation_fuel fuel =
      if Z.of_nat fuel <? loop_bound then None else longComputation) /\
  is_Some longComputation.
Proof.
  split.
  - intros fuel. destruct (Z.ltb_spec (Z.of_nat fuel) loop_bound) as [Hlt | Hge].
    + unfold longComputation_fuel. apply for_loop_runs_out;
        unfold loop_bound in *; lia.
    + apply longComputation_fuel_enough. unfold loop_bound in *. lia.
  - destruct longComputation_large as [v [Hv _]]. exists v. exact Hv.
Qed.

(** Below 2^59 rounding moves a number by at most 32 (half a unit in the last
    place there), and not below zero. *)
Lemma round53_error (x : Z) :
  0 <= x < 2 ^ 59 -> 0 <= round53 x /\ Z.abs (round53 x - x) <= 32.
Proof.
  intros [Hx0 Hx]. unfold round53, precision.
  destruct (Z.leb_spec (Z.log2 (Z.abs x) - (53 - 1)) 0) as [He | He];
    [lia |].
  rewrite (Z.abs_eq x) in * by lia.
  assert (Hpos : 0 < x).
  { destruct (Z.eq_dec x 0) as [-> | Hne]; [cbn in He; lia | lia]. }
  assert (Hlog : Z.log2 x < 59) by (apply Z.log2_lt_pow2; lia).
  set (e := Z.log2 x - (53 - 1)) in *.
  assert (He' : 1 <= e <= 6) by lia.
  rewrite Z.sgn_pos by lia.
  rewrite Z.shiftr_div_pow2, Z.land_ones, !Z.shiftl_mul_pow2 by lia.
  replace (2 ^ e) with (2 * 2 ^ (e - 1))
    by (rewrite <- Z.pow_succ_r by lia; f_equal; lia).
  set (h := 2 ^ (e - 1)).
  assert (Hh : 1 <= h <= 32).
  { unfold h. split.
    - change 1 with (2 ^ 0). apply Z.pow_le_mono_r; lia.
    - change 32 with (2 ^ 5). apply Z.pow_le_mono_r; lia. }
  pose proof (Z.div_mod x (2 * h) ltac:(lia)) as Hdm.
  pose proof (Z.mod_pos_bound x (2 * h) ltac:(lia)) as Hr.
  assert (Hq : 0 <= x / (2 * h)) by (apply Z.div_pos; lia).
  set (q := x / (2 * h)) in *. set (r := x mod (2 * h)) in *.
  clearbody q r h. clear Hlog He He' e. rewrite !Z.mul_1_l.
  destruct (Z.ltb_spec r h); [nia |].
  destruct (Z.ltb_spec h r); [nia |].
  destruct (Z.even q); nia.
Qed.

(** The running sum stays within [32 * n] of the exact sum of [0 .. n-1]. *)
Lemma fold_js_add_accurate (k : nat) :
  forall (n : nat) (s : Z),
    Z.of_nat (n + k) <= 1000000000 ->
    0 <= s -> Z.abs (2 * s - Z.of_nat n * (Z.of_nat n - 1)) <= 64 * Z.of_nat n ->
    let s' := fold_left js_add (map Z.of_nat (seq n k)) s in
    0 <= s' /\
    Z.abs (2 * s' - Z.of_nat (n + k) * (Z.of_nat (n + k) - 1)) <=
    64 * Z.of_nat (n + k).
Proof.
  induction k as [| k IH]; intros n s Hn Hs Herr; cbn [seq map fold_left].
  - replace (n + 0)%nat with n by lia. split; assumption.
  - replace (n + S k)%nat with (S n + k)%nat in * by lia.
    assert (Hsq : Z.of_nat n * (Z.of_nat n - 1) <= 1000000000 * 1000000000)
      by nia.
    destruct (round53_error (s + Z.of_nat n)) as [Hr0 Hr].
    { split; [lia |]. change (2 ^ 59) with 576460752303423488. lia. }
    apply IH; [exact Hn | exact Hr0 |].
    unfold js_add. lia.
Qed.

(** X2: the number [longComputation] returns is within [3.2 * 10^10] of the
    exact sum [499999999500000000] of the integers below [10^9]. *)
Theorem longComputation_accuracy :
  exists v : Z,
    longComputation = Some v /\
    Z.abs (v - 499999999500000000) <= 32000000000.
Proof.
  exists (sum_of_integers_below (Z.to_nat loop_bound)).
  split; [apply longComputation_fold |].
  assert (Hn : Z.of_nat (Z.to_nat loop_bound) = 1000000000)
    by (apply Z2Nat.id; unfold loop_bound; lia).
  generalize dependent (Z.to_nat loop_bound). intros n Hn.
  destruct (fold_js_add_accurate n 0 0) as [_ H]; [lia | lia | lia |].
  cbn [Nat.add] in H. fold (sum_of_integers_below n) in H.
  rewrite Hn in H. lia.
Qed.

(** ** The first server: every request is answered in its listener *)

Lemma blocking_on_request (v : Z) (url : string) (p : Process) :
  longComputation = Some v ->
  BlockingServer.server_on_request url p =
  Some {| children := children p; requests := S (requests p);
          output := output p ++
                    [ResEnd (requests p) (BlockingServer.response_body v url)] |}.
Proof.
  intros Hv. unfold BlockingServer.server_on_request, BlockingServer.response_body.
  destruct (String.eqb url "/compute"); [rewrite Hv |]; reflexivity.
Qed.

Lemma blocking_serve (v : Z) (urls : list string) :
  longComputation = Some v ->
  forall p : Process,
    BlockingServer.serve urls p =
    Some {| children := children p;
            requests := requests p + length urls;
            output := output p ++
                      imap (fun i url =>
                              ResEnd (requests p + i)
                                (BlockingServer.response_body v url)) urls |}.
Proof.
  intros Hv. induction urls as [| url urls IH]; intros p.
  - cbn [BlockingServer.serve length imap]. rewrite app_nil_r, Nat.add_0_r.
    destruct p; reflexivity.
  - cbn [BlockingServer.serve]. rewrite (blocking_on_request v url p Hv).
    cbn [mbind option_bind]. rewrite IH. cbn [children requests output length imap].
    rewrite <- app_assoc, Nat.add_0_r. cbn [app].
    do 2 f_equal; [lia |]. do 2 f_equal.
    apply imap_ext. intros i x _. cbn. f_equal. lia.
Qed.

(** X3: the first server answers every request in the listener itself: after
    [n] requests there are exactly [n] responses, the [i]-th for the [i]-th
    request, [Sum is v] for [/compute] and [Ok] for anything else, and it
    never forks. *)
Theorem blocking_server_answers_every_request :
  exists v : Z,
    longComputation = Some v /\
    forall urls : list string,
      BlockingServer.serve urls init =
      Some {| children := []; requests := length urls;
              output := imap (fun res url =>
                                ResEnd res (BlockingServer.response_body v url))
                          urls |}.
Proof.
  destruct longComputation_large as [v [Hv _]].
  exists v. split; [exact Hv |].
  intros urls. rewrite (blocking_serve v urls Hv). reflexivity.
Qed.

(** ** The forking server: what does not belong to a worker *)

Lemma dispatch_requests (e : Event) (p : Process) :
  (requests p <= requests (dispatch e p))%nat.
Proof.
  destruct e as [url | c msg | c code signal]; cbn [dispatch].
  - unfold server_on_request.
    destruct (String.eqb url "/compute"); cbn; lia.
  - destruct (children p !! c); cbn; lia.
  - destruct (children p !! c); cbn; lia.
Qed.

(** An event leaves alone the responses of a request no worker was forked
    for, provided the request has arrived or the event is no request. *)
Lemma dispatch_delivered_unowned (e : Event) (p : Process) (owners : list nat)
    (res : nat) :
  served p owners -> res ∉ owners ->
  (res < requests p)%nat \/ is_compute_request e = false /\
                            (forall url, e <> Request url) ->
  delivered_to res (dispatch e p) = delivered_to res p /\
  res ∉ owners ++ (if is_compute_request e then [requests p] else []).
Proof.
  intros (Hc & Hnd & Hlt & Hout) Hres Hcase. split.
  - unfold delivered_to.
    destruct e as [url | c msg | c code signal]; cbn [dispatch].
    + destruct Hcase as [Hlt' | [_ Hno]]; [| exfalso; exact (Hno url eq_refl)].
      destruct (String.eqb url "/compute") eqn:Hurl.
      * apply String.eqb_eq in Hurl. subst url.
        rewrite server_on_request_compute. reflexivity.
      * rewrite (server_on_request_other _ _ Hurl). cbn [output].
        rewrite List.filter_app. cbn [List.filter is_end_of].
        destruct (Nat.eqb_spec (requests p) res); [lia | apply app_nil_r].
    + rewrite Hc, list_lookup_fmap.
      destruct (owners !! c) as [r |] eqn:Hr; cbn [fmap option_fmap option_map];
        [| reflexivity].
      unfold write. cbn [output cp_on_message compute_child flat_map
                          run_message_listener app].
      rewrite List.filter_app. cbn [List.filter is_end_of].
      destruct (Nat.eqb_spec r res) as [-> | Hne]; [| apply app_nil_r].
      exfalso. apply Hres. eapply list_elem_of_lookup_2. exact Hr.
    + rewrite Hc, list_lookup_fmap.
      destruct (owners !! c) as [r |] eqn:Hr; cbn [fmap option_fmap option_map];
        [| reflexivity].
      unfold write. cbn [output cp_on_exit compute_child flat_map].
      rewrite app_nil_r. reflexivity.
  - destruct (is_compute_request e) eqn:He; [| rewrite app_nil_r; exact Hres].
    destruct Hcase as [Hlt' | [Hno _]]; [| discriminate].
    intros Hin. apply elem_of_app in Hin as [Hin | Hin]; [exact (Hres Hin) |].
    apply list_elem_of_singleton in Hin. lia.
Qed.

Lemma run_delivered_unowned (events : list Event) :
  forall (p : Process) (owners : list nat) (res : nat),
    served p owners -> res ∉ owners -> (res < requests p)%nat ->
    delivered_to res (run events p) = delivered_to res p.
Proof.
  induction events as [| e events IH]; intros p owners res Hp Hres Hlt;
    cbn [run]; [reflexivity |].
  destruct (dispatch_delivered_unowned e p owners res Hp Hres (or_introl Hlt))
    as [Hd Hres'].
  rewrite (IH _ _ res (dispatch_served e p owners Hp) Hres'), Hd;
    [reflexivity |].
  pose proof (dispatch_requests e p). lia.
Qed.

(** X5: a request for anything but [/compute] is answered [Ok] once, in its
    listener, and nothing that happens later (messages, exits, further
    requests) adds to its response. *)
Theorem other_requests_are_answered_ok :
  forall (before : list Event) (url : string) (after : list Event),
    String.eqb url "/compute" = false ->
    delivered_to (requests (run before init))
      (run (before ++ Request url :: after) init) =
    [ResEnd (requests (run before init)) (Plain "Ok")].
Proof.
  intros before url after Hurl.
  destruct (served_run_init before) as (owners & Hp & _).
  set (p := run before init) in *.
  rewrite run_app. cbn [run]. fold p.
  pose proof (dispatch_served (Request url) p owners Hp) as Hp'.
  cbn [is_compute_request] in Hp'. rewrite Hurl, app_nil_r in Hp'.
  assert (Hres : requests p ∉ owners).
  { intros Hin. destruct Hp as (_ & _ & Hlt & _).
    rewrite Forall_forall in Hlt. apply Hlt in Hin. lia. }
  rewrite (run_delivered_unowned after _ owners (requests p) Hp' Hres).
  - cbn [dispatch]. rewrite (server_on_request_other _ _ Hurl).
    unfold delivered_to. cbn [output]. rewrite List.filter_app.
    fold (delivered_to (requests p) p).
    rewrite (delivered_to_future p owners (requests p) Hp) by lia.
    cbn [List.filter is_end_of app]. rewrite Nat.eqb_refl. reflexivity.
  - cbn [dispatch]. rewrite (server_on_request_other _ _ Hurl). cbn. lia.
Qed.

Lemma other_requests_are_answered_ok_witness :
  delivered_to (requests (run [Request "/compute"] init))
    (run ([Request "/compute"] ++ Request "/" :: [Message 0 (JNum 5); Exit 0 (Some 0) None;
                                                  Request "/compute"]) init) =
  [ResEnd (requests (run [Request "/compute"] init)) (Plain "Ok")].
Proof.
  apply (other_requests_are_answered_ok [Request "/compute"] "/"
           [Message 0 (JNum 5); Exit 0 (Some 0) None; Request "/compute"]).
  reflexivity.
Defined.

(** X6: the workers of the forking server: whatever has happened, every
    handle the process holds runs [compute.js], has been sent exactly one
    message, ['start'], has no [exit] listener and exactly one [message]
    listener, which answers a request that has arrived; and no two handles
    answer the same request. *)
Theorem workers_are_started_once :
  forall events : list Event,
    let p := run events init in
    Forall (fun c => cp_file c = "compute.js"%string /\
                     cp_sent c = [JStr "start"] /\
                     cp_on_exit c = [] /\
                     exists res, cp_on_message c = [RespondWithSum res] /\
                                 (res < requests p)%nat)
      (children p) /\
    forall child1 child2 res : nat,
      owner p child1 = Some res -> owner p child2 = Some res -> child1 = child2.
Proof.
  intros events p.
  destruct (served_run_init events) as (owners & Hp & _). fold p in Hp.
  split.
  - destruct Hp as (Hc & _ & Hlt & _). rewrite Hc.
    apply Forall_fmap. eapply Forall_impl; [exact Hlt |].
    intros res Hres. cbn. repeat split. eauto.
  - intros child1 child2 res H1 H2.
    apply (served_owner _ _ _ _ Hp) in H1, H2.
    destruct Hp as (_ & Hnd & _). exact (NoDup_lookup _ _ _ _ Hnd H1 H2).
Qed.

(** ** Forking the computation does not change the answers *)







(** ** [child.js]: all the messages *)

Lemma counter_after_min (n : nat) :
  ChildJs.counter_after n 0 = Z.min (Z.of_nat n) (2 ^ 53).
Proof.
  induction n as [| n IH]; [reflexivity |].
  rewrite counter_after_succ, IH.
  destruct (Z_lt_le_dec (Z.of_nat n) (2 ^ 53)) as [Hlt | Hge].
  - rewrite (Z.min_l (Z.of_nat n)) by lia.
    rewrite js_add_exact by lia. lia.
  - rewrite (Z.min_r (Z.of_nat n)) by lia.
    rewrite js_add_saturates. lia.
Qed.

Lemma intervals_map (n : nat) :
  forall c : Z,
    ChildJs.intervals n c =
    map (fun j => ChildJs.counter_message (ChildJs.counter_after j c)) (seq 0 n).
Proof.
  induction n as [| n IH]; intros c; [reflexivity |].
  cbn [ChildJs.intervals ChildJs.on_interval seq map ChildJs.counter_after].
  f_equal. rewrite IH, <- seq_shift, map_map. reflexivity.
Qed.

(** X7: the messages of [child.js] in full: the [j]-th firing of the timer
    (from 0) sends [{counter: min(j, 2^53)}]; the counter counts the firings
    up to 2^53 and stays there. *)
Theorem child_messages_closed_form :
  forall n : nat,
    ChildJs.sent n =
    map (fun j => ChildJs.counter_message (Z.min (Z.of_nat j) (2 ^ 53)))
      (seq 0 n) /\
    ChildJs.counter_after n ChildJs.counter_init = Z.min (Z.of_nat n) (2 ^ 53).
Proof.
  intros n. split; [| apply counter_after_min].
  unfold ChildJs.sent, ChildJs.counter_init. rewrite intervals_map.
  apply map_ext. intros j. rewrite counter_after_min. reflexivity.
Qed.
